(** * Bit primitives and the K&R string hash of [tasks.ipynb]

    A shallow embedding of the functions of the notebook: [rotl],
    [rotr], [ch], [maj], [hash_function] and the display helper
    [print_bit_patterns].

    Python integers are unbounded, so a Python [int] is a [Z]:
    - [x & y], [x | y] and [~x] are [Z.land], [Z.lor] and [Z.lnot]
      (two's complement with infinitely many sign bits on both sides);
    - [x << n] and [x >> n] are [Z.shiftl] and [Z.shiftr] for [0 <= n]
      (multiplication by [2^n], floor division by [2^n]) and raise
      [ValueError] for a negative [n];
    - [n % 32] is [n mod 32]: both take the sign of the divisor.

    A Python [str] is the list of its code points, and [ord] reads one. *)

From Stdlib Require Import ZArith List Bool Lia String Ascii.
Import ListNotations.

Local Open Scope Z_scope.

(** ** Python values and errors *)

(** The only exception the modelled operators can raise. *)
Inductive exn : Type :=
| ValueError_negative_shift_count.

(** Outcome of evaluating a Python expression: a value or a raised
    exception. *)
Inductive result (A : Type) : Type :=
| Ok (a : A)
| Raise (e : exn).

Arguments Ok {A} a.
Arguments Raise {A} e.

Definition bind {A B : Type} (r : result A) (k : A -> result B) : result B :=
  match r with
  | Ok a => k a
  | Raise e => Raise e
  end.

Notation "x <- r ;; k" := (bind r (fun x => k))
  (at level 61, r at next level, right associativity).

(** [x << n] on Python integers. *)
Definition py_lshift (x n : Z) : result Z :=
  if n <? 0 then Raise ValueError_negative_shift_count
  else Ok (Z.shiftl x n).

(** [x >> n] on Python integers. *)
Definition py_rshift (x n : Z) : result Z :=
  if n <? 0 then Raise ValueError_negative_shift_count
  else Ok (Z.shiftr x n).

(** ** Words *)

(** The literal [0xFFFFFFFF] of the source. *)
Definition mask32 : Z := 0xFFFFFFFF.

(** A Word of the data model: an unsigned value that fits in 32 bits. *)
Definition word32 (x : Z) : Prop := 0 <= x < 2 ^ 32.

(** ** Task 1: rotations, choice and majority *)

(** [def rotl(x, n=1)]:
    [n %= 32; return ((x << n) | (x >> (32 - n))) & 0xFFFFFFFF]. *)
Definition rotl (x n : Z) : result Z :=
  let n := n mod 32 in
  hi <- py_lshift x n ;;
  lo <- py_rshift x (32 - n) ;;
  Ok (Z.land (Z.lor hi lo) mask32).

(** [def rotr(x, n=1)]:
    [n %= 32; return ((x >> n) | (x << (32 - n))) & 0xFFFFFFFF]. *)
Definition rotr (x n : Z) : result Z :=
  let n := n mod 32 in
  lo <- py_rshift x n ;;
  hi <- py_lshift x (32 - n) ;;
  Ok (Z.land (Z.lor lo hi) mask32).

(** [def ch(x, y, z): return (x & y) | ((~x) & z)]. *)
Definition ch (x y z : Z) : Z :=
  Z.lor (Z.land x y) (Z.land (Z.lnot x) z).

(** [def maj(x, y, z): return (x & y) | (x & z) | (y & z)]. *)
Definition maj (x y z : Z) : Z :=
  Z.lor (Z.lor (Z.land x y) (Z.land x z)) (Z.land y z).

(** ** Task 2: the hash function *)

(** A character of a Python string, as its Unicode code point. *)
Definition char : Type := N.

(** A Python [str]. *)
Definition str : Type := list char.

(** [ord(c)]. *)
Definition ord (c : char) : Z := Z.of_N c.

(** A string literal of the notebook as a [str]. *)
Fixpoint str_of_string (s : string) : str :=
  match s with
  | EmptyString => []
  | String a s' => N_of_ascii a :: str_of_string s'
  end.

(** The [for c in s] loop of [hash_function], started with the current
    value of [hashval]: the body is [hashval = ord(c) + 31 * hashval]. *)
Fixpoint hash_loop (hashval : Z) (s : str) : Z :=
  match s with
  | [] => hashval
  | c :: s' => hash_loop (ord c + 31 * hashval) s'
  end.

(** [def hash_function(s)]:
    [hashval = 0; for c in s: ...; return hashval % 101]. *)
Definition hash_function (s : str) : Z :=
  let hashval := 0 in
  let hashval := hash_loop hashval s in
  hashval mod 101.

(** ** The display code of Task 1 *)

(** A character literal of the source as a code point. *)
Definition chr (a : ascii) : char := N_of_ascii a.

(** The binary digits of a positive number, most significant first. *)
Fixpoint bin_digits (p : positive) : str :=
  match p with
  | xH => [chr "1"]
  | xO p' => bin_digits p' ++ [chr "0"]
  | xI p' => bin_digits p' ++ [chr "1"]
  end.

(** The builtin [bin(x)]: ["0b"] and the digits without leading zeros,
    with a leading ["-"] for a negative number; [bin(0)] is ["0b0"]. *)
Definition bin (x : Z) : str :=
  match x with
  | Z0 => str_of_string "0b0"
  | Zpos p => str_of_string "0b" ++ bin_digits p
  | Zneg p => str_of_string "-0b" ++ bin_digits p
  end.

(** One lower-case hexadecimal digit. *)
Definition hex_digit (d : N) : char :=
  if (d <? 10)%N then (N_of_ascii "0" + d)%N
  else (N_of_ascii "a" + (d - 10))%N.

(** The hexadecimal digits of [n], most significant first; every step
    removes four bits, so the number of bits of [n] is fuel enough. *)
Fixpoint hex_digits (fuel : nat) (n : N) : str :=
  match fuel with
  | O => []
  | S fuel' =>
      (if (n / 16 =? 0)%N then [] else hex_digits fuel' (n / 16))
        ++ [hex_digit (n mod 16)]
  end.

(** The builtin [hex(x)]. *)
Definition hex (x : Z) : str :=
  match x with
  | Z0 => str_of_string "0x0"
  | Zpos p => str_of_string "0x" ++ hex_digits (Pos.size_nat p) (Npos p)
  | Zneg p => str_of_string "-0x" ++ hex_digits (Pos.size_nat p) (Npos p)
  end.

(** The slice [s[k:]] for a literal [k >= 0]. *)
Definition slice_from (k : nat) (s : str) : str := skipn k s.

(** The slice [s[:k]] for a literal [k >= 0]. *)
Definition slice_to (k : nat) (s : str) : str := firstn k s.

(** The slice [s[-k:]] for a literal [k > 0]: the last [k] characters,
    or all of [s] when it is shorter. *)
Definition slice_last (k : nat) (s : str) : str :=
  skipn (List.length s - k) s.

(** [s.zfill(width)]: zeros on the left up to [width] characters, put
    after a leading sign; [s] itself when it is long enough. *)
Definition zfill (width : nat) (s : str) : str :=
  if (width <=? List.length s)%nat then s
  else
    let fill := repeat (chr "0") (width - List.length s) in
    match s with
    | c :: s' =>
        if (c =? chr "+")%N || (c =? chr "-")%N then c :: fill ++ s'
        else fill ++ s
    | [] => fill
    end.

(** The expression [bin(x)[2:].zfill(32)] of the display code. *)
Definition bit_pattern (x : Z) : str :=
  zfill 32 (slice_from 2 (bin x)).

(** What has been printed so far: one entry per call of [print], in
    order, without the newline that ends each of them. *)
Definition stdout : Type := list str.

(** [print(line)]. *)
Definition print (line : str) (out : stdout) : stdout := out ++ [line].

(** [def print_bit_patterns(func_name, x, y, z, result)]. *)
Definition print_bit_patterns
  (func_name : str) (x y z result : Z) (out : stdout) : stdout :=
  let x_bits := bit_pattern x in
  let y_bits := bit_pattern y in
  let z_bits := bit_pattern z in
  let result_bits := bit_pattern result in
  let out :=
    print ([10%N] ++ func_name ++ str_of_string " Function Demonstration:")
      out in
  let out :=
    print (str_of_string "x      = " ++ slice_to 8 x_bits
             ++ str_of_string "..." ++ slice_last 8 x_bits) out in
  let out :=
    print (str_of_string "y      = " ++ slice_to 8 y_bits
             ++ str_of_string "..." ++ slice_last 8 y_bits) out in
  let out :=
    print (str_of_string "z      = " ++ slice_to 8 z_bits
             ++ str_of_string "..." ++ slice_last 8 z_bits) out in
  let out :=
    print (str_of_string "Result = " ++ slice_to 8 result_bits
             ++ str_of_string "..." ++ slice_last 8 result_bits) out in
  print (str_of_string "Hex Result: " ++ hex result) out.

(** [rotl(x)] and [rotr(x)]: the shift amount defaults to 1. *)
Definition rotl_default (x : Z) : result Z := rotl x 1.
Definition rotr_default (x : Z) : result Z := rotr x 1.

(** ** Reference definitions, in the words of the specification *)

(** The choice function with the bitwise-NOT term masked to 32 bits
    before it is combined: [(x & y) | ((~x & 0xFFFFFFFF) & z)]. *)
Definition ch_masked (x y z : Z) : Z :=
  Z.lor (Z.land x y) (Z.land (Z.land (Z.lnot x) mask32) z).

(** Per-bit selector: [y]'s bit where the bit of [x] is 1, else [z]'s. *)
Definition select_bit (xi yi zi : bool) : bool :=
  if xi then yi else zi.

(** Number of set bits among three. *)
Definition votes (xi yi zi : bool) : nat :=
  (Nat.b2n xi + Nat.b2n yi + Nat.b2n zi)%nat.

(** Per-bit majority: at least two of the three bits are set. *)
Definition majority_bit (xi yi zi : bool) : bool :=
  (2 <=? votes xi yi zi)%nat.

(** One update of the accumulator: [c + 31 * accumulator]. *)
Definition hash_step (accumulator : Z) (c : char) : Z :=
  ord c + 31 * accumulator.

(** The polynomial rolling hash as the specification words it: start
    from 0, update once per character from left to right, reduce the
    final accumulator modulo 101. *)
Definition hash_reference (s : str) : Z :=
  fold_left hash_step s 0 mod 101.

(** The polynomial the hash evaluates at 31: the first character has
    the highest power. *)
Fixpoint hash_poly (s : str) : Z :=
  match s with
  | [] => 0
  | c :: s' => ord c * 31 ^ Z.of_nat (List.length s') + hash_poly s'
  end.

(** The word whose bit [i] is bit [(i - k) mod 32] of [x]: what a left
    rotation by [k] produces. *)
Definition rotl_bit (x k i : Z) : bool :=
  (0 <=? i) && (i <? 32) && Z.testbit x ((i - k) mod 32).

(** What a right rotation by [k] produces at bit [i]. *)
Definition rotr_bit (x k i : Z) : bool :=
  (0 <=? i) && (i <? 32) && Z.testbit x ((i + k) mod 32).

(** The character that shows a bit. *)
Definition bit_char (b : bool) : char :=
  if b then chr "1" else chr "0".

(** The [w] low bits of [x] as a string, most significant first. *)
Definition msb_digits (w : nat) (x : Z) : str :=
  map (fun i => bit_char (Z.testbit x (Z.of_nat i))) (rev (seq 0 w)).



(** * Properties *)

(** ** Words and the mask *)

Lemma mask32_ones : mask32 = Z.ones 32.
Proof. reflexivity. Qed.

Lemma land_mask32 (a : Z) : Z.land a mask32 = a mod 2 ^ 32.
Proof. rewrite mask32_ones. apply Z.land_ones. lia. Qed.

Lemma land_mask32_word (a : Z) : word32 (Z.land a mask32).
Proof.
  unfold word32. rewrite land_mask32.
  apply Z.mod_pos_bound. lia.
Qed.

Lemma word32_high_bits (x i : Z) : word32 x -> 32 <= i -> Z.testbit x i = false.
Proof.
  intros Hx Hi.
  rewrite <- (Z.mod_small x (2 ^ 32)) by exact Hx.
  apply Z.mod_pow2_bits_high. lia.
Qed.

Lemma word32_of_bits (x : Z) :
  0 <= x -> (forall i, 32 <= i -> Z.testbit x i = false) -> word32 x.
Proof.
  intros Hx Hhi. unfold word32. split; [exact Hx|].
  destruct (Z.eq_dec x 0) as [->|Hnz]; [lia|].
  assert (Hlog : Z.log2 x < 32).
  { destruct (Z_lt_le_dec (Z.log2 x) 32) as [Hlt|Hge]; [exact Hlt|].
    assert (Hbit : Z.testbit x (Z.log2 x) = true)
      by (apply Z.bit_log2; lia).
    rewrite Hhi in Hbit by exact Hge. discriminate. }
  apply Z.log2_lt_pow2; lia.
Qed.

Lemma testbit_mask32 (a i : Z) :
  0 <= i -> Z.testbit (Z.land a mask32) i = Z.testbit a i && (i <? 32).
Proof.
  intros Hi. rewrite Z.land_spec, mask32_ones.
  f_equal. rewrite Z.testbit_ones by lia.
  destruct (Z.leb_spec 0 i); [reflexivity | lia].
Qed.

Lemma word32_land_mask32 (x : Z) : word32 x -> Z.land x mask32 = x.
Proof.
  intros Hx. rewrite land_mask32. apply Z.mod_small. exact Hx.
Qed.

(** ** The shift amount *)

Lemma shift_amount_range (n : Z) : 0 <= n mod 32 < 32.
Proof. apply Z.mod_pos_bound. lia. Qed.

Lemma mod32_wrap_low (a : Z) : -32 <= a < 0 -> a mod 32 = a + 32.
Proof. intros Ha. symmetry. apply (Z.mod_unique_pos a 32 (-1)); lia. Qed.

Lemma mod32_wrap_high (a : Z) : 32 <= a < 64 -> a mod 32 = a - 32.
Proof. intros Ha. symmetry. apply (Z.mod_unique_pos a 32 1); lia. Qed.

(** Case analysis on where an index falls before it is wrapped. *)
Ltac wrap32 a :=
  first
    [ rewrite (Z.mod_small a 32) by lia
    | rewrite (mod32_wrap_low a) by lia
    | rewrite (mod32_wrap_high a) by lia ].

(** ** Rotations never raise *)

(** Neither shift of [rotl] sees a negative count, so the call returns
    the masked combination of the two shifted copies. *)
Lemma rotl_value (x n : Z) :
  rotl x n =
  Ok (Z.land (Z.lor (Z.shiftl x (n mod 32)) (Z.shiftr x (32 - n mod 32)))
        mask32).
Proof.
  unfold rotl, py_lshift, py_rshift.
  pose proof (shift_amount_range n) as Hn.
  destruct (Z.ltb_spec (n mod 32) 0) as [Hneg|_]; [lia|].
  cbn [bind].
  destruct (Z.ltb_spec (32 - n mod 32) 0) as [Hneg|_]; [lia|].
  reflexivity.
Qed.

Lemma rotr_value (x n : Z) :
  rotr x n =
  Ok (Z.land (Z.lor (Z.shiftr x (n mod 32)) (Z.shiftl x (32 - n mod 32)))
        mask32).
Proof.
  unfold rotr, py_lshift, py_rshift.
  pose proof (shift_amount_range n) as Hn.
  destruct (Z.ltb_spec (n mod 32) 0) as [Hneg|_]; [lia|].
  cbn [bind].
  destruct (Z.ltb_spec (32 - n mod 32) 0) as [Hneg|_]; [lia|].
  reflexivity.
Qed.

(** ** Bits of a rotated word *)

Lemma rotl_value_bits (x k i : Z) :
  word32 x -> 0 <= k < 32 -> 0 <= i ->
  Z.testbit
    (Z.land (Z.lor (Z.shiftl x k) (Z.shiftr x (32 - k))) mask32) i
  = rotl_bit x k i.
Proof.
  intros Hx Hk Hi. unfold rotl_bit.
  rewrite testbit_mask32, Z.lor_spec, Z.shiftl_spec, Z.shiftr_spec by lia.
  destruct (Z.leb_spec 0 i) as [_|Hneg]; [|lia].
  destruct (Z.ltb_spec i 32) as [Hlt|Hge]; cbn [andb].
  - destruct (Z_lt_le_dec i k) as [Hik|Hik].
    + rewrite (Z.testbit_neg_r x (i - k)) by lia.
      wrap32 (i - k). cbn [orb]. rewrite Bool.andb_true_r.
      f_equal. lia.
    + rewrite (word32_high_bits x (i + (32 - k))) by (auto; lia).
      wrap32 (i - k). rewrite Bool.orb_false_r, Bool.andb_true_r.
      reflexivity.
  - apply Bool.andb_false_r.
Qed.

Lemma rotr_value_bits (x k i : Z) :
  word32 x -> 0 <= k < 32 -> 0 <= i ->
  Z.testbit
    (Z.land (Z.lor (Z.shiftr x k) (Z.shiftl x (32 - k))) mask32) i
  = rotr_bit x k i.
Proof.
  intros Hx Hk Hi. unfold rotr_bit.
  rewrite testbit_mask32, Z.lor_spec, Z.shiftl_spec, Z.shiftr_spec by lia.
  destruct (Z.leb_spec 0 i) as [_|Hneg]; [|lia].
  destruct (Z.ltb_spec i 32) as [Hlt|Hge]; cbn [andb].
  - destruct (Z_lt_le_dec (i + k) 32) as [Hik|Hik].
    + rewrite (Z.testbit_neg_r x (i - (32 - k))) by lia.
      wrap32 (i + k). rewrite Bool.orb_false_r, Bool.andb_true_r.
      reflexivity.
    + rewrite (word32_high_bits x (i + k)) by (auto; lia).
      wrap32 (i + k). cbn [orb]. rewrite Bool.andb_true_r.
      f_equal. lia.
  - apply Bool.andb_false_r.
Qed.

(** The two wrapped index maps undo each other. *)
Lemma unwrap_after_wrap_l (i k : Z) :
  0 <= i < 32 -> 0 <= k < 32 -> ((i + k) mod 32 - k) mod 32 = i.
Proof.
  intros Hi Hk.
  destruct (Z_lt_le_dec (i + k) 32).
  - wrap32 (i + k). wrap32 (i + k - k). lia.
  - wrap32 (i + k). wrap32 (i + k - 32 - k). lia.
Qed.

Lemma unwrap_after_wrap_r (i k : Z) :
  0 <= i < 32 -> 0 <= k < 32 -> ((i - k) mod 32 + k) mod 32 = i.
Proof.
  intros Hi Hk.
  destruct (Z_lt_le_dec i k).
  - wrap32 (i - k). wrap32 (i - k + 32 + k). lia.
  - wrap32 (i - k). wrap32 (i - k + k). lia.
Qed.

Lemma rotr_rotl_value (x k : Z) :
  word32 x -> 0 <= k < 32 ->
  Z.land
    (Z.lor
       (Z.shiftr
          (Z.land (Z.lor (Z.shiftl x k) (Z.shiftr x (32 - k))) mask32) k)
       (Z.shiftl
          (Z.land (Z.lor (Z.shiftl x k) (Z.shiftr x (32 - k))) mask32)
          (32 - k)))
    mask32 = x.
Proof.
  intros Hx Hk. apply Z.bits_inj'. intros i Hi.
  rewrite rotr_value_bits by (auto using land_mask32_word).
  unfold rotr_bit.
  destruct (Z.leb_spec 0 i) as [_|Hneg]; [|lia].
  destruct (Z.ltb_spec i 32) as [Hlt|Hge]; cbn [andb].
  - pose proof (shift_amount_range (i + k)) as Hj.
    rewrite rotl_value_bits by (auto; lia).
    unfold rotl_bit.
    destruct (Z.leb_spec 0 ((i + k) mod 32)) as [_|Hneg]; [|lia].
    destruct (Z.ltb_spec ((i + k) mod 32) 32) as [_|Hge]; [|lia].
    cbn [andb]. rewrite unwrap_after_wrap_l by lia. reflexivity.
  - symmetry. apply word32_high_bits; assumption.
Qed.

Lemma rotl_rotr_value (x k : Z) :
  word32 x -> 0 <= k < 32 ->
  Z.land
    (Z.lor
       (Z.shiftl
          (Z.land (Z.lor (Z.shiftr x k) (Z.shiftl x (32 - k))) mask32) k)
       (Z.shiftr
          (Z.land (Z.lor (Z.shiftr x k) (Z.shiftl x (32 - k))) mask32)
          (32 - k)))
    mask32 = x.
Proof.
  intros Hx Hk. apply Z.bits_inj'. intros i Hi.
  rewrite rotl_value_bits by (auto using land_mask32_word).
  unfold rotl_bit.
  destruct (Z.leb_spec 0 i) as [_|Hneg]; [|lia].
  destruct (Z.ltb_spec i 32) as [Hlt|Hge]; cbn [andb].
  - pose proof (shift_amount_range (i - k)) as Hj.
    rewrite rotr_value_bits by (auto; lia).
    unfold rotr_bit.
    destruct (Z.leb_spec 0 ((i - k) mod 32)) as [_|Hneg]; [|lia].
    destruct (Z.ltb_spec ((i - k) mod 32) 32) as [_|Hge]; [|lia].
    cbn [andb]. rewrite unwrap_after_wrap_r by lia. reflexivity.
  - symmetry. apply word32_high_bits; assumption.
Qed.

(** Rotating left and then right by the same amount, whatever the
    amount, gives the word back; and the other way round. *)
Lemma rotr_rotl_any (x n : Z) :
  word32 x -> (y <- rotl x n ;; rotr y n) = Ok x.
Proof.
  intros Hx. rewrite rotl_value. cbn [bind]. rewrite rotr_value.
  f_equal. apply rotr_rotl_value; [exact Hx | apply shift_amount_range].
Qed.

Lemma rotl_rotr_any (x n : Z) :
  word32 x -> (y <- rotr x n ;; rotl y n) = Ok x.
Proof.
  intros Hx. rewrite rotr_value. cbn [bind]. rewrite rotl_value.
  f_equal. apply rotl_rotr_value; [exact Hx | apply shift_amount_range].
Qed.

(** ** Range of the results *)

Lemma rotl_range (x n : Z) : exists w, rotl x n = Ok w /\ word32 w.
Proof.
  eexists. split; [apply rotl_value | apply land_mask32_word].
Qed.

Lemma rotr_range (x n : Z) : exists w, rotr x n = Ok w /\ word32 w.
Proof.
  eexists. split; [apply rotr_value | apply land_mask32_word].
Qed.

Lemma land_word32_r (a z : Z) : word32 z -> word32 (Z.land a z).
Proof.
  intros Hz. apply word32_of_bits.
  - apply Z.land_nonneg. right. apply Hz.
  - intros i Hi. rewrite Z.land_spec, (word32_high_bits z i) by assumption.
    apply Bool.andb_false_r.
Qed.

Lemma lor_word32 (a b : Z) : word32 a -> word32 b -> word32 (Z.lor a b).
Proof.
  intros Ha Hb. apply word32_of_bits.
  - apply Z.lor_nonneg. split; [apply Ha | apply Hb].
  - intros i Hi.
    rewrite Z.lor_spec, (word32_high_bits a i), (word32_high_bits b i)
      by assumption.
    reflexivity.
Qed.

Lemma ch_word32 (x y z : Z) : word32 y -> word32 z -> word32 (ch x y z).
Proof.
  intros Hy Hz. unfold ch. apply lor_word32; apply land_word32_r; assumption.
Qed.

Lemma maj_word32 (x y z : Z) :
  word32 x -> word32 y -> word32 z -> word32 (maj x y z).
Proof.
  intros Hx Hy Hz. unfold maj.
  repeat apply lor_word32; apply land_word32_r; assumption.
Qed.

(** ** Bits of the choice and of the majority *)

Lemma ch_bits (x y z i : Z) :
  Z.testbit (ch x y z) i
  = select_bit (Z.testbit x i) (Z.testbit y i) (Z.testbit z i).
Proof.
  destruct (Z_lt_le_dec i 0) as [Hneg|Hi].
  - rewrite !Z.testbit_neg_r by exact Hneg. reflexivity.
  - unfold ch, select_bit.
    rewrite Z.lor_spec, !Z.land_spec, Z.lnot_spec by exact Hi.
    destruct (Z.testbit x i), (Z.testbit y i), (Z.testbit z i); reflexivity.
Qed.

Lemma maj_bits (x y z i : Z) :
  Z.testbit (maj x y z) i
  = majority_bit (Z.testbit x i) (Z.testbit y i) (Z.testbit z i).
Proof.
  unfold maj. rewrite !Z.lor_spec, !Z.land_spec.
  destruct (Z.testbit x i), (Z.testbit y i), (Z.testbit z i); reflexivity.
Qed.

Lemma ch_masked_bits (x y z i : Z) :
  0 <= i ->
  Z.testbit (ch_masked x y z) i
  = select_bit (Z.testbit x i) (Z.testbit y i)
      ((i <? 32) && Z.testbit z i).
Proof.
  intros Hi. unfold ch_masked, select_bit.
  rewrite Z.lor_spec, !Z.land_spec, Z.lnot_spec by exact Hi.
  rewrite mask32_ones, Z.testbit_ones by lia.
  destruct (Z.leb_spec 0 i) as [_|Hneg]; [|lia].
  destruct (Z.testbit x i), (Z.testbit y i), (Z.testbit z i), (i <? 32);
    reflexivity.
Qed.

(** On 32-bit [z] the explicit mask of the reference changes nothing:
    the conjunction with [z] already clears the high bits of [~x]. *)
Lemma ch_eq_ch_masked (x y z : Z) : word32 z -> ch x y z = ch_masked x y z.
Proof.
  intros Hz. apply Z.bits_inj'. intros i Hi.
  rewrite ch_bits, ch_masked_bits by exact Hi.
  destruct (Z.ltb_spec i 32) as [_|Hge]; [reflexivity|].
  rewrite (word32_high_bits z i) by assumption. reflexivity.
Qed.

Lemma ch_zero (y z : Z) : ch 0 y z = z.
Proof.
  apply Z.bits_inj'. intros i Hi.
  rewrite ch_bits, Z.bits_0. reflexivity.
Qed.

Lemma ch_ones (y z : Z) : word32 y -> word32 z -> ch mask32 y z = y.
Proof.
  intros Hy Hz. apply Z.bits_inj'. intros i Hi.
  rewrite ch_bits, mask32_ones. unfold select_bit.
  destruct (Z_lt_le_dec i 32) as [Hlt|Hge].
  - rewrite Z.ones_spec_low by lia. reflexivity.
  - rewrite Z.ones_spec_high by lia.
    rewrite (word32_high_bits y i), (word32_high_bits z i) by assumption.
    reflexivity.
Qed.

Lemma maj_same (x z : Z) : maj x x z = x.
Proof.
  apply Z.bits_inj'. intros i Hi. rewrite maj_bits.
  destruct (Z.testbit x i), (Z.testbit z i); reflexivity.
Qed.

Lemma maj_swap_12 (x y z : Z) : maj x y z = maj y x z.
Proof.
  apply Z.bits_inj'. intros i Hi. rewrite !maj_bits.
  destruct (Z.testbit x i), (Z.testbit y i), (Z.testbit z i); reflexivity.
Qed.

Lemma maj_swap_23 (x y z : Z) : maj x y z = maj x z y.
Proof.
  apply Z.bits_inj'. intros i Hi. rewrite !maj_bits.
  destruct (Z.testbit x i), (Z.testbit y i), (Z.testbit z i); reflexivity.
Qed.

(** ** The hash loop *)

Lemma hash_loop_fold (s : str) (acc : Z) :
  hash_loop acc s = fold_left hash_step s acc.
Proof.
  revert acc. induction s as [|c s IH]; intros acc; cbn.
  - reflexivity.
  - apply IH.
Qed.

(** Horner's rule: the loop evaluates the polynomial of the characters
    at 31, on top of what the accumulator already holds. *)
Lemma hash_loop_poly (s : str) (acc : Z) :
  hash_loop acc s = acc * 31 ^ Z.of_nat (List.length s) + hash_poly s.
Proof.
  revert acc. induction s as [|c s IH]; intros acc.
  - cbn. lia.
  - cbn [hash_loop hash_poly List.length]. rewrite IH.
    rewrite Nat2Z.inj_succ, Z.pow_succ_r by lia. ring.
Qed.

Lemma hash_function_poly (s : str) : hash_function s = hash_poly s mod 101.
Proof.
  unfold hash_function. rewrite hash_loop_poly. f_equal.
Qed.

Lemma hash_function_range (s : str) : 0 <= hash_function s <= 100.
Proof.
  unfold hash_function.
  pose proof (Z.mod_pos_bound (hash_loop 0 s) 101). lia.
Qed.

(** Reducing after every update, as a fixed-width port could, gives the
    same hash. *)
Lemma hash_loop_mod (s : str) (a b : Z) :
  a mod 101 = b mod 101 -> hash_loop a s mod 101 = hash_loop b s mod 101.
Proof.
  revert a b. induction s as [|c s IH]; intros a b Hab; cbn.
  - exact Hab.
  - apply IH.
    rewrite (Z.add_mod (ord c) (31 * a)), (Z.add_mod (ord c) (31 * b)) by lia.
    rewrite (Z.mul_mod 31 a), (Z.mul_mod 31 b) by lia.
    rewrite Hab. reflexivity.
Qed.

(** * The specification's claims *)

(** C1. For 32-bit [x], [y], [z], [ch x y z] is the word whose bit [i]
    is the bit [i] of [y] where the bit [i] of [x] is 1 and the bit [i]
    of [z] otherwise; it equals [(x & y) | (~x & z)] with the NOT term
    masked to 32 bits; [ch 0 y z = z] and [ch 0xFFFFFFFF y z = y]. *)
Theorem ch_selects (x y z : Z) :
  word32 x -> word32 y -> word32 z ->
  word32 (ch x y z)
  /\ (forall i,
        Z.testbit (ch x y z) i
        = if Z.testbit x i then Z.testbit y i else Z.testbit z i)
  /\ ch x y z = ch_masked x y z
  /\ ch 0 y z = z
  /\ ch 0xFFFFFFFF y z = y.
Proof.
  intros Hx Hy Hz. split; [|split; [|split; [|split]]].
  - apply ch_word32; assumption.
  - intros i. apply ch_bits.
  - apply ch_eq_ch_masked. exact Hz.
  - apply ch_zero.
  - apply (ch_ones y z); assumption.
Qed.

Lemma ch_selects_witness :
  word32 0xF0F0F0F0 /\ word32 0xAAAAAAAA /\ word32 0x55555555
  /\ word32 (ch 0xF0F0F0F0 0xAAAAAAAA 0x55555555)
  /\ (forall i,
        Z.testbit (ch 0xF0F0F0F0 0xAAAAAAAA 0x55555555) i
        = if Z.testbit 0xF0F0F0F0 i
          then Z.testbit 0xAAAAAAAA i else Z.testbit 0x55555555 i)
  /\ ch 0xF0F0F0F0 0xAAAAAAAA 0x55555555
     = ch_masked 0xF0F0F0F0 0xAAAAAAAA 0x55555555
  /\ ch 0 0xAAAAAAAA 0x55555555 = 0x55555555
  /\ ch 0xFFFFFFFF 0xAAAAAAAA 0x55555555 = 0xAAAAAAAA.
Proof.
  assert (Hx : word32 0xF0F0F0F0) by (unfold word32; lia).
  assert (Hy : word32 0xAAAAAAAA) by (unfold word32; lia).
  assert (Hz : word32 0x55555555) by (unfold word32; lia).
  split; [exact Hx | split; [exact Hy | split; [exact Hz |]]].
  apply (ch_selects 0xF0F0F0F0 0xAAAAAAAA 0x55555555 Hx Hy Hz).
Defined.

(** C2. [hash_function s] is the accumulator started at 0 and updated
    to [ord c + 31 * accumulator] for each character from left to right,
    reduced modulo 101 at the end; so it lies in [0, 100] and the hash
    of the empty string is 0. *)
Theorem hash_function_spec :
  (forall s, hash_function s = hash_reference s)
  /\ (forall s, 0 <= hash_function s <= 100)
  /\ hash_function [] = 0.
Proof.
  split; [|split].
  - intros s. unfold hash_function, hash_reference.
    rewrite hash_loop_fold. reflexivity.
  - apply hash_function_range.
  - reflexivity.
Qed.

(** C3. For 32-bit [x] and [0 <= n <= 31], rotating left then right by
    [n] returns [x], and so does rotating right then left. *)
Theorem rotl_rotr_inverse (x n : Z) :
  word32 x -> 0 <= n <= 31 ->
  (y <- rotl x n ;; rotr y n) = Ok x
  /\ (y <- rotr x n ;; rotl y n) = Ok x.
Proof.
  intros Hx _. split.
  - apply rotr_rotl_any. exact Hx.
  - apply rotl_rotr_any. exact Hx.
Qed.

Lemma rotl_rotr_inverse_witness :
  word32 0x12345678 /\ 0 <= 4 <= 31
  /\ (y <- rotl 0x12345678 4 ;; rotr y 4) = Ok 0x12345678
  /\ (y <- rotr 0x12345678 4 ;; rotl y 4) = Ok 0x12345678.
Proof.
  assert (Hx : word32 0x12345678) by (unfold word32; lia).
  assert (Hn : 0 <= 4 <= 31) by lia.
  split; [exact Hx | split; [exact Hn |]].
  apply (rotl_rotr_inverse 0x12345678 4 Hx Hn).
Defined.

(** C4. For every [x] (so for every 32-bit [x]) and every integer [n],
    negative and oversized ones included, [rotl x n] returns a value,
    never an error, and it is the value of [rotl x (n mod 32)]. *)
Theorem rotl_shift_normalized (x n : Z) :
  rotl x n = rotl x (n mod 32)
  /\ exists w, rotl x n = Ok w.
Proof.
  split.
  - rewrite !rotl_value. rewrite Z.mod_mod by lia. reflexivity.
  - eexists. apply rotl_value.
Qed.

(** C5. On 32-bit inputs, [rotl], [rotr], [ch] and [maj] each return a
    value in [0, 2^32). *)
Theorem word_operations_closed (x y z n : Z) :
  word32 x -> word32 y -> word32 z ->
  (exists w, rotl x n = Ok w /\ word32 w)
  /\ (exists w, rotr x n = Ok w /\ word32 w)
  /\ word32 (ch x y z)
  /\ word32 (maj x y z).
Proof.
  intros Hx Hy Hz. split; [|split; [|split]].
  - apply rotl_range.
  - apply rotr_range.
  - apply ch_word32; assumption.
  - apply maj_word32; assumption.
Qed.

Lemma word_operations_closed_witness :
  word32 0x12345678 /\ word32 0xABCDEF01 /\ word32 0x55555555
  /\ (exists w, rotl 0x12345678 4 = Ok w /\ word32 w)
  /\ (exists w, rotr 0x12345678 4 = Ok w /\ word32 w)
  /\ word32 (ch 0x12345678 0xABCDEF01 0x55555555)
  /\ word32 (maj 0x12345678 0xABCDEF01 0x55555555).
Proof.
  assert (Hx : word32 0x12345678) by (unfold word32; lia).
  assert (Hy : word32 0xABCDEF01) by (unfold word32; lia).
  assert (Hz : word32 0x55555555) by (unfold word32; lia).
  split; [exact Hx | split; [exact Hy | split; [exact Hz |]]].
  apply (word_operations_closed 0x12345678 0xABCDEF01 0x55555555 4 Hx Hy Hz).
Defined.

(** C6. Bit [i] of [maj x y z] is 1 exactly when at least two of [x],
    [y], [z] have bit [i] set, the value being
    [(x & y) | (x & z) | (y & z)]; and [maj x x z = x].  This holds for
    all integers, so for all 32-bit words. *)
Theorem maj_majority (x y z : Z) :
  maj x y z = Z.lor (Z.lor (Z.land x y) (Z.land x z)) (Z.land y z)
  /\ (forall i,
        Z.testbit (maj x y z) i = true
        <-> (2 <= votes (Z.testbit x i) (Z.testbit y i) (Z.testbit z i))%nat)
  /\ maj x x z = x.
Proof.
  split; [reflexivity | split].
  - intros i. rewrite maj_bits. unfold majority_bit.
    apply Nat.leb_le.
  - apply maj_same.
Qed.

(** C7. [maj] takes the same value on every reordering of its three
    arguments, while [ch] does not: on some 32-bit inputs every
    reordering of the arguments changes the result. *)
Theorem maj_symmetric_ch_not :
  (forall x y z,
      maj x y z = maj x z y
      /\ maj x y z = maj y x z
      /\ maj x y z = maj y z x
      /\ maj x y z = maj z x y
      /\ maj x y z = maj z y x)
  /\ (exists x y z,
        word32 x /\ word32 y /\ word32 z
        /\ ch x y z <> ch x z y
        /\ ch x y z <> ch y x z
        /\ ch x y z <> ch y z x
        /\ ch x y z <> ch z x y
        /\ ch x y z <> ch z y x).
Proof.
  split.
  - intros x y z. repeat apply conj.
    + apply maj_swap_23.
    + apply maj_swap_12.
    + rewrite (maj_swap_12 x y z). apply maj_swap_23.
    + rewrite (maj_swap_23 x y z). apply maj_swap_12.
    + rewrite (maj_swap_12 x y z), (maj_swap_23 y x z). apply maj_swap_12.
  - exists 0xFFFFFFFF, 0, 1.
    repeat apply conj; try (unfold word32; lia); discriminate.
Qed.

(** C8. For 32-bit [x], rotating by zero or by a full circle changes
    nothing: [rotl x 0 = x], [rotr x 0 = x] and [rotl x 32 = x]. *)
Theorem rotation_identity (x : Z) :
  word32 x ->
  rotl x 0 = Ok x /\ rotr x 0 = Ok x /\ rotl x 32 = Ok x.
Proof.
  intros Hx.
  assert (Hhi : Z.shiftr x 32 = 0).
  { rewrite Z.shiftr_div_pow2 by lia. apply Z.div_small. exact Hx. }
  assert (Hlo : Z.shiftl x 32 mod 2 ^ 32 = 0).
  { rewrite Z.shiftl_mul_pow2 by lia. apply Z.mod_mul. lia. }
  repeat apply conj.
  - rewrite rotl_value. change (0 mod 32) with 0.
    change (32 - 0) with 32.
    rewrite Z.shiftl_0_r, Hhi, Z.lor_0_r, word32_land_mask32 by exact Hx.
    reflexivity.
  - rewrite rotr_value. change (0 mod 32) with 0.
    change (32 - 0) with 32.
    rewrite Z.shiftr_0_r. f_equal.
    apply Z.bits_inj'. intros i Hi.
    rewrite testbit_mask32, Z.lor_spec, Z.shiftl_spec by lia.
    destruct (Z.ltb_spec i 32) as [Hlt|Hge].
    + rewrite (Z.testbit_neg_r x (i - 32)) by lia.
      rewrite Bool.orb_false_r, Bool.andb_true_r. reflexivity.
    + rewrite (word32_high_bits x i) by assumption.
      apply Bool.andb_false_r.
  - rewrite rotl_value. change (32 mod 32) with 0.
    change (32 - 0) with 32.
    rewrite Z.shiftl_0_r, Hhi, Z.lor_0_r, word32_land_mask32 by exact Hx.
    reflexivity.
Qed.

Lemma rotation_identity_witness :
  word32 0x12345678
  /\ rotl 0x12345678 0 = Ok 0x12345678
  /\ rotr 0x12345678 0 = Ok 0x12345678
  /\ rotl 0x12345678 32 = Ok 0x12345678.
Proof.
  assert (Hx : word32 0x12345678) by (unfold word32; lia).
  split; [exact Hx |].
  apply (rotation_identity 0x12345678 Hx).
Defined.

(** C9. The literal test vectors of the notebook. *)
Theorem literal_vectors :
  rotl 0x12345678 4 = Ok 0x23456781
  /\ rotl 0x12345678 16 = Ok 0x56781234
  /\ rotr 0x12345678 4 = Ok 0x81234567
  /\ rotr 0x12345678 16 = Ok 0x56781234
  /\ ch 0xFF00FF00 0xAAAAAAAA 0x55555555 = 0xAA55AA55
  /\ maj 0xFF00FF00 0xAAAAAAAA 0x55555555 = 0xFF00FF00.
Proof. repeat split; vm_compute; reflexivity. Qed.

(** C10. For every integer [x], negative or wider than 32 bits
    included, and every integer [n], [rotl x n] and [rotr x n] return a
    value in [0, 2^32). *)
Theorem rotation_range_any_input (x n : Z) :
  (exists w, rotl x n = Ok w /\ word32 w)
  /\ (exists w, rotr x n = Ok w /\ word32 w).
Proof.
  split; [apply rotl_range | apply rotr_range].
Qed.

(** ** Regression vectors *)

Example rotl_demo : rotl 0x12345678 8 = Ok 0x34567812.
Proof. reflexivity. Qed.

Example rotl_negative_word : rotl (-1) (-3) = Ok 0xFFFFFFFF.
Proof. reflexivity. Qed.

Example hash_yabba : hash_function (str_of_string "yabba") = 10.
Proof. reflexivity. Qed.

Example hash_dabba : hash_function (str_of_string "dabba") = 89.
Proof. reflexivity. Qed.

Example hash_doo : hash_function (str_of_string "doo") = 66.
Proof. reflexivity. Qed.

Example hash_flintstone : hash_function (str_of_string "flintstone") = 34.
Proof. reflexivity. Qed.

(** * Further properties of the rotations *)

Lemma word32_eq_of_bits (a b : Z) :
  word32 a -> word32 b ->
  (forall i, 0 <= i < 32 -> Z.testbit a i = Z.testbit b i) -> a = b.
Proof.
  intros Ha Hb Hbits. apply Z.bits_inj'. intros i Hi.
  destruct (Z_lt_le_dec i 32) as [Hlt|Hge].
  - apply Hbits. lia.
  - rewrite (word32_high_bits a i), (word32_high_bits b i) by assumption.
    reflexivity.
Qed.

Lemma rotl_word_bits (x n : Z) :
  word32 x ->
  exists w, rotl x n = Ok w /\ word32 w
    /\ forall i, 0 <= i < 32 -> Z.testbit w i = Z.testbit x ((i - n) mod 32).
Proof.
  intros Hx. eexists. split; [apply rotl_value|].
  split; [apply land_mask32_word|].
  intros i Hi.
  rewrite rotl_value_bits by (auto using shift_amount_range; lia).
  unfold rotl_bit.
  destruct (Z.leb_spec 0 i) as [_|Hneg]; [|lia].
  destruct (Z.ltb_spec i 32) as [_|Hge]; [|lia].
  cbn [andb]. rewrite Zminus_mod_idemp_r. reflexivity.
Qed.

Lemma rotr_word_bits (x n : Z) :
  word32 x ->
  exists w, rotr x n = Ok w /\ word32 w
    /\ forall i, 0 <= i < 32 -> Z.testbit w i = Z.testbit x ((i + n) mod 32).
Proof.
  intros Hx. eexists. split; [apply rotr_value|].
  split; [apply land_mask32_word|].
  intros i Hi.
  rewrite rotr_value_bits by (auto using shift_amount_range; lia).
  unfold rotr_bit.
  destruct (Z.leb_spec 0 i) as [_|Hneg]; [|lia].
  destruct (Z.ltb_spec i 32) as [_|Hge]; [|lia].
  cbn [andb]. rewrite Zplus_mod_idemp_r. reflexivity.
Qed.

(** X1. On a 32-bit word a left rotation is a circular move of the
    bits: the result is a word whose bit [i] is bit [(i - n) mod 32] of
    the input, for every integer [n]. *)
Theorem rotl_moves_bits (x n : Z) :
  word32 x ->
  exists w, rotl x n = Ok w /\ word32 w
    /\ forall i, 0 <= i < 32 -> Z.testbit w i = Z.testbit x ((i - n) mod 32).
Proof. apply rotl_word_bits. Qed.

Lemma rotl_moves_bits_witness :
  word32 0x12345678
  /\ exists w, rotl 0x12345678 4 = Ok w /\ word32 w
       /\ forall i, 0 <= i < 32 ->
            Z.testbit w i = Z.testbit 0x12345678 ((i - 4) mod 32).
Proof.
  assert (Hx : word32 0x12345678) by (unfold word32; lia).
  split; [exact Hx |].
  apply (rotl_moves_bits 0x12345678 4 Hx).
Defined.

(** X2. On a 32-bit word a right rotation is the opposite circular
    move: bit [i] of the result is bit [(i + n) mod 32] of the input. *)
Theorem rotr_moves_bits (x n : Z) :
  word32 x ->
  exists w, rotr x n = Ok w /\ word32 w
    /\ forall i, 0 <= i < 32 -> Z.testbit w i = Z.testbit x ((i + n) mod 32).
Proof. apply rotr_word_bits. Qed.

Lemma rotr_moves_bits_witness :
  word32 0x12345678
  /\ exists w, rotr 0x12345678 4 = Ok w /\ word32 w
       /\ forall i, 0 <= i < 32 ->
            Z.testbit w i = Z.testbit 0x12345678 ((i + 4) mod 32).
Proof.
  assert (Hx : word32 0x12345678) by (unfold word32; lia).
  split; [exact Hx |].
  apply (rotr_moves_bits 0x12345678 4 Hx).
Defined.

(** X3. On a 32-bit word, rotating right by [n] is rotating left by
    [-n], and by [32 - n]. *)
Theorem rotr_is_rotl_opposite (x n : Z) :
  word32 x ->
  rotr x n = rotl x (- n) /\ rotr x n = rotl x (32 - n).
Proof.
  intros Hx.
  pose proof (rotr_word_bits x n Hx) as (w & Hr & Hw & Hbits).
  pose proof (rotl_word_bits x (- n) Hx) as (w1 & Hr1 & Hw1 & Hbits1).
  pose proof (rotl_word_bits x (32 - n) Hx) as (w2 & Hr2 & Hw2 & Hbits2).
  rewrite Hr, Hr1, Hr2.
  split; f_equal; apply word32_eq_of_bits; try assumption; intros i Hi.
  - rewrite Hbits, Hbits1 by exact Hi. do 2 f_equal. lia.
  - rewrite Hbits, Hbits2 by exact Hi. f_equal.
    replace (i - (32 - n)) with (i + n + (-1) * 32) by lia.
    symmetry. apply Z.mod_add. lia.
Qed.

Lemma rotr_is_rotl_opposite_witness :
  word32 0x12345678
  /\ rotr 0x12345678 4 = rotl 0x12345678 (- 4)
  /\ rotr 0x12345678 4 = rotl 0x12345678 (32 - 4).
Proof.
  assert (Hx : word32 0x12345678) by (unfold word32; lia).
  split; [exact Hx |].
  apply (rotr_is_rotl_opposite 0x12345678 4 Hx).
Defined.

(** X4. Rotations in the same direction add up: on a 32-bit word,
    rotating by [a] and then by [b] is rotating by [a + b]; a left
    rotation followed by a right one is a left rotation by the
    difference. *)
Theorem rotations_compose (x a b : Z) :
  word32 x ->
  (y <- rotl x a ;; rotl y b) = rotl x (a + b)
  /\ (y <- rotr x a ;; rotr y b) = rotr x (a + b)
  /\ (y <- rotl x a ;; rotr y b) = rotl x (a - b).
Proof.
  intros Hx.
  pose proof (rotl_word_bits x a Hx) as (wl & Hl & Hwl & Hbl).
  pose proof (rotr_word_bits x a Hx) as (wr & Hr & Hwr & Hbr).
  pose proof (rotl_word_bits wl b Hwl) as (wll & Hll & Hwll & Hbll).
  pose proof (rotr_word_bits wr b Hwr) as (wrr & Hrr & Hwrr & Hbrr).
  pose proof (rotr_word_bits wl b Hwl) as (wlr & Hlr & Hwlr & Hblr).
  pose proof (rotl_word_bits x (a + b) Hx) as (w1 & H1 & Hw1 & Hb1).
  pose proof (rotr_word_bits x (a + b) Hx) as (w2 & H2 & Hw2 & Hb2).
  pose proof (rotl_word_bits x (a - b) Hx) as (w3 & H3 & Hw3 & Hb3).
  rewrite Hl, Hr. cbn [bind]. rewrite Hll, Hrr, Hlr, H1, H2, H3.
  split; [|split]; f_equal; apply word32_eq_of_bits; try assumption;
    intros i Hi.
  - rewrite Hbll, Hb1 by exact Hi.
    rewrite Hbl by (apply shift_amount_range).
    rewrite Zminus_mod_idemp_l. f_equal. f_equal. lia.
  - rewrite Hbrr, Hb2 by exact Hi.
    rewrite Hbr by (apply shift_amount_range).
    rewrite Zplus_mod_idemp_l. f_equal. f_equal. lia.
  - rewrite Hblr, Hb3 by exact Hi.
    rewrite Hbl by (apply shift_amount_range).
    rewrite Zminus_mod_idemp_l. f_equal. f_equal. lia.
Qed.

Lemma rotations_compose_witness :
  word32 0x12345678
  /\ (y <- rotl 0x12345678 20 ;; rotl y 16) = rotl 0x12345678 (20 + 16)
  /\ (y <- rotr 0x12345678 20 ;; rotr y 16) = rotr 0x12345678 (20 + 16)
  /\ (y <- rotl 0x12345678 20 ;; rotr y 16) = rotl 0x12345678 (20 - 16).
Proof.
  assert (Hx : word32 0x12345678) by (unfold word32; lia).
  split; [exact Hx |].
  apply (rotations_compose 0x12345678 20 16 Hx).
Defined.

(** X5. Rotations lose nothing: two 32-bit words with the same left
    rotation, or the same right rotation, are equal. *)
Theorem rotations_injective (x y n : Z) :
  word32 x -> word32 y ->
  (rotl x n = rotl y n -> x = y) /\ (rotr x n = rotr y n -> x = y).
Proof.
  intros Hx Hy. split; intros Heq.
  - pose proof (rotr_rotl_any x n Hx) as Hbx.
    pose proof (rotr_rotl_any y n Hy) as Hby.
    rewrite Heq, Hby in Hbx. injection Hbx as ->. reflexivity.
  - pose proof (rotl_rotr_any x n Hx) as Hbx.
    pose proof (rotl_rotr_any y n Hy) as Hby.
    rewrite Heq, Hby in Hbx. injection Hbx as ->. reflexivity.
Qed.

Lemma rotations_injective_witness :
  word32 0x12345678 /\ word32 0x12345678
  /\ (rotl 0x12345678 4 = rotl 0x12345678 4 -> 0x12345678 = 0x12345678)
  /\ (rotr 0x12345678 4 = rotr 0x12345678 4 -> 0x12345678 = 0x12345678).
Proof.
  assert (Hx : word32 0x12345678) by (unfold word32; lia).
  split; [exact Hx | split; [exact Hx |]].
  apply (rotations_injective 0x12345678 0x12345678 4 Hx Hx).
Defined.

(** ** Rotations as arithmetic *)

Lemma shiftr_word32 (x k : Z) : word32 x -> 0 <= k -> word32 (Z.shiftr x k).
Proof.
  intros Hx Hk. unfold word32 in *. rewrite Z.shiftr_div_pow2 by exact Hk.
  assert (Hp : 0 < 2 ^ k) by (apply Z.pow_pos_nonneg; lia).
  split.
  - apply Z.div_pos; lia.
  - apply Z.le_lt_trans with x; [|lia].
    apply Z.div_le_upper_bound; nia.
Qed.

(** The two shifted copies of a word never overlap inside the mask. *)
Lemma rotl_parts_disjoint (x k : Z) :
  word32 x -> 0 <= k < 32 ->
  Z.land (Z.land (Z.shiftl x k) mask32) (Z.shiftr x (32 - k)) = 0.
Proof.
  intros Hx Hk. apply Z.bits_inj'. intros i Hi.
  rewrite Z.land_spec, testbit_mask32, Z.shiftl_spec, Z.shiftr_spec,
    Z.bits_0 by lia.
  destruct (Z_lt_le_dec i k) as [Hik|Hik].
  - rewrite (Z.testbit_neg_r x (i - k)) by lia. reflexivity.
  - rewrite (word32_high_bits x (i + (32 - k))) by (auto; lia).
    apply Bool.andb_false_r.
Qed.

Lemma rotr_parts_disjoint (x k : Z) :
  word32 x -> 0 <= k < 32 ->
  Z.land (Z.shiftr x k) (Z.land (Z.shiftl x (32 - k)) mask32) = 0.
Proof.
  intros Hx Hk. apply Z.bits_inj'. intros i Hi.
  rewrite Z.land_spec, testbit_mask32, Z.shiftl_spec, Z.shiftr_spec,
    Z.bits_0 by lia.
  destruct (Z_lt_le_dec (i + k) 32) as [Hik|Hik].
  - rewrite (Z.testbit_neg_r x (i - (32 - k))) by lia.
    rewrite Bool.andb_false_l. apply Bool.andb_false_r.
  - rewrite (word32_high_bits x (i + k)) by (auto; lia). reflexivity.
Qed.

Lemma lor_disjoint_add (a b : Z) : Z.land a b = 0 -> Z.lor a b = a + b.
Proof.
  intros Hab. rewrite Z.add_nocarry_lxor by exact Hab.
  symmetry. apply Z.lxor_lor. exact Hab.
Qed.

Lemma rotl_arith (x n : Z) :
  word32 x ->
  rotl x n = Ok ((x * 2 ^ (n mod 32)) mod 2 ^ 32 + x / 2 ^ (32 - n mod 32)).
Proof.
  intros Hx. pose proof (shift_amount_range n) as Hk.
  rewrite rotl_value. f_equal.
  rewrite Z.land_lor_distr_l.
  rewrite (word32_land_mask32 (Z.shiftr x (32 - n mod 32)))
    by (apply shiftr_word32; [exact Hx | lia]).
  rewrite lor_disjoint_add by (apply rotl_parts_disjoint; assumption).
  rewrite land_mask32, Z.shiftl_mul_pow2, Z.shiftr_div_pow2 by lia.
  reflexivity.
Qed.

Lemma rotr_arith (x n : Z) :
  word32 x ->
  rotr x n = Ok (x / 2 ^ (n mod 32) + (x * 2 ^ (32 - n mod 32)) mod 2 ^ 32).
Proof.
  intros Hx. pose proof (shift_amount_range n) as Hk.
  rewrite rotr_value. f_equal.
  rewrite Z.land_lor_distr_l.
  rewrite (word32_land_mask32 (Z.shiftr x (n mod 32)))
    by (apply shiftr_word32; [exact Hx | lia]).
  rewrite lor_disjoint_add by (apply rotr_parts_disjoint; assumption).
  rewrite land_mask32, Z.shiftl_mul_pow2, Z.shiftr_div_pow2 by lia.
  reflexivity.
Qed.

(** X6. In arithmetic, with [k = n mod 32], the left rotation of a
    32-bit word is [(x * 2^k) mod 2^32 + x / 2^(32 - k)] and the right
    rotation is [x / 2^k + (x * 2^(32 - k)) mod 2^32]. *)
Theorem rotations_arithmetic (x n : Z) :
  word32 x ->
  rotl x n = Ok ((x * 2 ^ (n mod 32)) mod 2 ^ 32 + x / 2 ^ (32 - n mod 32))
  /\ rotr x n
     = Ok (x / 2 ^ (n mod 32) + (x * 2 ^ (32 - n mod 32)) mod 2 ^ 32).
Proof.
  intros Hx. split; [apply rotl_arith | apply rotr_arith]; exact Hx.
Qed.

Lemma rotations_arithmetic_witness :
  word32 0x12345678
  /\ rotl 0x12345678 36
     = Ok ((0x12345678 * 2 ^ (36 mod 32)) mod 2 ^ 32
           + 0x12345678 / 2 ^ (32 - 36 mod 32))
  /\ rotr 0x12345678 36
     = Ok (0x12345678 / 2 ^ (36 mod 32)
           + (0x12345678 * 2 ^ (32 - 36 mod 32)) mod 2 ^ 32).
Proof.
  assert (Hx : word32 0x12345678) by (unfold word32; lia).
  split; [exact Hx |].
  apply (rotations_arithmetic 0x12345678 36 Hx).
Defined.

(** X7. With the default shift of 1, [rotl(x)] doubles a 32-bit word
    and brings the bit that falls off the top back in at the bottom;
    [rotr(x)] halves it and puts the bit that falls off the bottom at
    the top. *)
Theorem default_rotations (x : Z) :
  word32 x ->
  rotl_default x = Ok (if x <? 2 ^ 31 then 2 * x else 2 * x - 2 ^ 32 + 1)
  /\ rotr_default x = Ok (x / 2 + (x mod 2) * 2 ^ 31).
Proof.
  intros Hx. unfold rotl_default, rotr_default.
  rewrite rotl_arith, rotr_arith by exact Hx.
  change (1 mod 32) with 1. change (32 - 1) with 31.
  unfold word32 in Hx. split; f_equal.
  - destruct (Z.ltb_spec x (2 ^ 31)) as [Hlt|Hge].
    + rewrite Z.mod_small, Z.div_small by lia. lia.
    + assert (Hq : x / 2 ^ 31 = 1).
      { symmetry. apply (Z.div_unique_pos x (2 ^ 31) 1 (x - 2 ^ 31)); lia. }
      assert (Hm : (x * 2 ^ 1) mod 2 ^ 32 = 2 * x - 2 ^ 32).
      { symmetry. apply (Z.mod_unique_pos (x * 2 ^ 1) (2 ^ 32) 1); lia. }
      rewrite Hq, Hm. lia.
  - change (2 ^ 32) with (2 * 2 ^ 31).
    rewrite Z.mul_mod_distr_r by lia. reflexivity.
Qed.

Lemma default_rotations_witness :
  word32 0x80000001
  /\ rotl_default 0x80000001
     = Ok (if 0x80000001 <? 2 ^ 31
           then 2 * 0x80000001 else 2 * 0x80000001 - 2 ^ 32 + 1)
  /\ rotr_default 0x80000001
     = Ok (0x80000001 / 2 + (0x80000001 mod 2) * 2 ^ 31).
Proof.
  assert (Hx : word32 0x80000001) by (unfold word32; lia).
  split; [exact Hx |].
  apply (default_rotations 0x80000001 Hx).
Defined.

(** ** Rotations of integers that are not 32-bit words *)

Lemma rotl_any_bits (x n i : Z) :
  0 <= i < 32 ->
  exists w, rotl x n = Ok w
    /\ Z.testbit w i
       = Z.testbit x (i - n mod 32) || Z.testbit x (i + (32 - n mod 32)).
Proof.
  intros Hi. pose proof (shift_amount_range n) as Hk.
  eexists. split; [apply rotl_value|].
  rewrite testbit_mask32, Z.lor_spec, Z.shiftl_spec, Z.shiftr_spec by lia.
  destruct (Z.ltb_spec i 32) as [_|Hge]; [|lia].
  apply Bool.andb_true_r.
Qed.

(** X8. On an arbitrary integer the rotations do not reduce the input
    to 32 bits first: with [k = n mod 32], bit [i] of [rotl x n] is the
    OR of bits [i - k] and [i + 32 - k] of [x], so the bits of [x]
    above bit 31 come back in; [rotr] likewise with bits [i + k] and
    [i + k - 32]. *)
Theorem rotations_of_any_integer (x n i : Z) :
  0 <= i < 32 ->
  (exists w, rotl x n = Ok w
     /\ Z.testbit w i
        = Z.testbit x (i - n mod 32) || Z.testbit x (i + (32 - n mod 32)))
  /\ (exists w, rotr x n = Ok w
        /\ Z.testbit w i
           = Z.testbit x (i + n mod 32)
             || Z.testbit x (i - (32 - n mod 32))).
Proof.
  intros Hi. split; [apply rotl_any_bits; exact Hi|].
  pose proof (shift_amount_range n) as Hk.
  eexists. split; [apply rotr_value|].
  rewrite testbit_mask32, Z.lor_spec, Z.shiftl_spec, Z.shiftr_spec by lia.
  destruct (Z.ltb_spec i 32) as [_|Hge]; [|lia].
  apply Bool.andb_true_r.
Qed.

Lemma rotations_of_any_integer_witness :
  0 <= 1 < 32
  /\ (exists w, rotl (2 ^ 32) 1 = Ok w
        /\ Z.testbit w 1
           = Z.testbit (2 ^ 32) (1 - 1 mod 32)
             || Z.testbit (2 ^ 32) (1 + (32 - 1 mod 32)))
  /\ (exists w, rotr (2 ^ 32) 1 = Ok w
        /\ Z.testbit w 1
           = Z.testbit (2 ^ 32) (1 + 1 mod 32)
             || Z.testbit (2 ^ 32) (1 - (32 - 1 mod 32))).
Proof.
  assert (Hi : 0 <= 1 < 32) by lia.
  split; [exact Hi |].
  apply (rotations_of_any_integer (2 ^ 32) 1 1 Hi).
Defined.

(** X9. Consequently a set bit 32 of the input shows up in the result
    of a left rotation, at bit [n mod 32], whatever the low 32 bits
    are: the result is not the rotation of the 32 low bits. *)
Theorem rotl_leaks_bit_32 (x n : Z) :
  Z.testbit x 32 = true ->
  exists w, rotl x n = Ok w /\ Z.testbit w (n mod 32) = true.
Proof.
  intros Hbit. pose proof (shift_amount_range n) as Hk.
  destruct (rotl_any_bits x n (n mod 32) Hk) as (w & Hw & Hb).
  exists w. split; [exact Hw|].
  rewrite Hb.
  replace (n mod 32 + (32 - n mod 32)) with 32 by lia.
  rewrite Hbit. apply Bool.orb_true_r.
Qed.

Lemma rotl_leaks_bit_32_witness :
  Z.testbit (2 ^ 32) 32 = true
  /\ exists w, rotl (2 ^ 32) 5 = Ok w /\ Z.testbit w (5 mod 32) = true.
Proof.
  assert (Hb : Z.testbit (2 ^ 32) 32 = true) by reflexivity.
  split; [exact Hb |].
  apply (rotl_leaks_bit_32 (2 ^ 32) 5 Hb).
Defined.

(** * Further properties of the choice and the majority *)

(** Equality of integers from equality of bits, after rewriting the
    bits of the bitwise operators and trying every value of the bits
    of [x], [y] and [z]. *)
Ltac bitwise3 x y z :=
  apply Z.bits_inj'; intros ?i ?Hi;
  unfold ch, maj;
  repeat first
    [ rewrite Z.lor_spec | rewrite Z.land_spec | rewrite Z.lxor_spec
    | rewrite Z.lnot_spec by assumption ];
  match goal with
  | i : Z |- _ =>
      destruct (Z.testbit x i), (Z.testbit y i), (Z.testbit z i); reflexivity
  end.

(** X10. The OR forms of the notebook are the XOR forms of SHA-256:
    [ch x y z = (x & y) ^ (~x & z)] and
    [maj x y z = (x & y) ^ (x & z) ^ (y & z)], for all integers. *)
Theorem ch_maj_xor_forms (x y z : Z) :
  ch x y z = Z.lxor (Z.land x y) (Z.land (Z.lnot x) z)
  /\ maj x y z
     = Z.lxor (Z.lxor (Z.land x y) (Z.land x z)) (Z.land y z).
Proof.
  split; bitwise3 x y z.
Qed.

(** X11. The majority is a choice: [x] chooses between [y | z], where
    one more vote is enough, and [y & z], where it takes both. *)
Theorem maj_is_ch (x y z : Z) :
  maj x y z = ch x (Z.lor y z) (Z.land y z).
Proof.
  bitwise3 x y z.
Qed.



(** X13. Both functions commute with complement: the majority of the
    complements is the complement of the majority, and choosing
    between complements is the complement of the choice. *)
Theorem ch_maj_complement (x y z : Z) :
  maj (Z.lnot x) (Z.lnot y) (Z.lnot z) = Z.lnot (maj x y z)
  /\ ch x (Z.lnot y) (Z.lnot z) = Z.lnot (ch x y z).
Proof.
  split; bitwise3 x y z.
Qed.

(** X14. Neither function masks its result.  On arbitrary integers
    [ch x y z] is negative exactly when the sign of the selector picks
    a negative operand, and [maj x y z] exactly when at least two of
    the inputs are negative. *)
Theorem ch_maj_sign (x y z : Z) :
  (ch x y z < 0 <-> (x < 0 /\ y < 0) \/ (0 <= x /\ z < 0))
  /\ (maj x y z < 0
      <-> (x < 0 /\ y < 0) \/ (x < 0 /\ z < 0) \/ (y < 0 /\ z < 0)).
Proof.
  unfold ch, maj.
  rewrite !Z.lor_neg, !Z.land_neg, Z.lnot_neg. tauto.
Qed.

(** X15. The selector of [ch] need not be a word: when [y] and [z] are
    32-bit words, [ch x y z] and [maj x y z] are 32-bit words for
    every integer [x], negative or wider than 32 bits. *)
Theorem ch_maj_word_of_two_words (x y z : Z) :
  word32 y -> word32 z ->
  word32 (ch x y z) /\ word32 (maj x y z).
Proof.
  intros Hy Hz. split.
  - apply ch_word32; assumption.
  - unfold maj. repeat apply lor_word32; apply land_word32_r; assumption.
Qed.

Lemma ch_maj_word_of_two_words_witness :
  word32 0xAAAAAAAA /\ word32 0x55555555
  /\ word32 (ch (-7) 0xAAAAAAAA 0x55555555)
  /\ word32 (maj (-7) 0xAAAAAAAA 0x55555555).
Proof.
  assert (Hy : word32 0xAAAAAAAA) by (unfold word32; lia).
  assert (Hz : word32 0x55555555) by (unfold word32; lia).
  split; [exact Hy | split; [exact Hz |]].
  apply (ch_maj_word_of_two_words (-7) 0xAAAAAAAA 0x55555555 Hy Hz).
Defined.

(** * Further properties of the hash *)

Lemma hash_loop_app (s t : str) (acc : Z) :
  hash_loop acc (s ++ t) = hash_loop (hash_loop acc s) t.
Proof.
  revert acc. induction s as [|c s IH]; intros acc; cbn.
  - reflexivity.
  - apply IH.
Qed.

Lemma hash_loop_congruent (s t : str) (a b : Z) :
  Forall2 (fun c d => ord c mod 101 = ord d mod 101) s t ->
  a mod 101 = b mod 101 ->
  hash_loop a s mod 101 = hash_loop b t mod 101.
Proof.
  intros Hst. revert a b.
  induction Hst as [|c d s t Hcd _ IH]; intros a b Hab; cbn.
  - exact Hab.
  - apply IH.
    rewrite (Z.add_mod (ord c) (31 * a)), (Z.add_mod (ord d) (31 * b)) by lia.
    rewrite (Z.mul_mod 31 a), (Z.mul_mod 31 b) by lia.
    rewrite Hcd, Hab. reflexivity.
Qed.

(** X16. The hash is the value at 31 of the polynomial whose
    coefficients are the character codes, the first character having
    the highest power, reduced modulo 101. *)
Theorem hash_is_polynomial (s : str) :
  hash_function s = hash_poly s mod 101.
Proof. apply hash_function_poly. Qed.

(** X17. The hash can be computed incrementally from hashes alone: the
    hash of [s] followed by a character [c] is
    [(ord c + 31 * hash s) mod 101], and the hash of [s ++ t] is
    [(hash s * 31^|t| + poly t) mod 101]. *)
Theorem hash_incremental (s t : str) (c : char) :
  hash_function (s ++ [c]) = (ord c + 31 * hash_function s) mod 101
  /\ hash_function (s ++ t)
     = (hash_function s * 31 ^ Z.of_nat (List.length t) + hash_poly t)
       mod 101.
Proof.
  unfold hash_function. rewrite !hash_loop_app. split.
  - rewrite (hash_loop_mod [c] (hash_loop 0 s) (hash_loop 0 s mod 101))
      by (rewrite Z.mod_mod by lia; reflexivity).
    reflexivity.
  - rewrite (hash_loop_mod t (hash_loop 0 s) (hash_loop 0 s mod 101))
      by (rewrite Z.mod_mod by lia; reflexivity).
    rewrite hash_loop_poly. reflexivity.
Qed.

(** X18. Only the character codes modulo 101 matter: two strings of
    the same length whose characters are pairwise congruent modulo 101
    have the same hash. *)
Theorem hash_of_congruent_strings (s t : str) :
  Forall2 (fun c d => ord c mod 101 = ord d mod 101) s t ->
  hash_function s = hash_function t.
Proof.
  intros Hst. unfold hash_function.
  apply hash_loop_congruent; [exact Hst | reflexivity].
Qed.

Lemma hash_of_congruent_strings_witness :
  Forall2 (fun c d => ord c mod 101 = ord d mod 101)
    (str_of_string "doo") [201%N; 10%N; 212%N]
  /\ hash_function (str_of_string "doo")
     = hash_function [201%N; 10%N; 212%N].
Proof.
  assert (H : Forall2 (fun c d => ord c mod 101 = ord d mod 101)
                (str_of_string "doo") [201%N; 10%N; 212%N]).
  { repeat constructor. }
  split; [exact H |].
  apply (hash_of_congruent_strings _ _ H).
Defined.

(** X19. A leading character whose code is a multiple of 101, such as
    ["e"], is invisible to the hash: [hash (c :: s) = hash s]. *)
Theorem hash_ignores_leading_multiple (c : char) (s : str) :
  ord c mod 101 = 0 ->
  hash_function (c :: s) = hash_function s.
Proof.
  intros Hc. unfold hash_function. cbn [hash_loop].
  apply hash_loop_mod.
  rewrite Z.mul_0_r, Z.add_0_r. exact Hc.
Qed.

Lemma hash_ignores_leading_multiple_witness :
  ord (chr "e") mod 101 = 0
  /\ hash_function (chr "e" :: str_of_string "doo")
     = hash_function (str_of_string "doo").
Proof.
  assert (Hc : ord (chr "e") mod 101 = 0) by reflexivity.
  split; [exact Hc |].
  apply (hash_ignores_leading_multiple (chr "e") (str_of_string "doo") Hc).
Defined.

(** * The display code *)

(** ** Bit strings *)

Lemma msb_digits_length (w : nat) (x : Z) : List.length (msb_digits w x) = w.
Proof.
  unfold msb_digits. rewrite length_map, length_rev, length_seq. reflexivity.
Qed.

(** The first character shows the highest bit. *)
Lemma msb_digits_top (w : nat) (x : Z) :
  msb_digits (S w) x
  = bit_char (Z.testbit x (Z.of_nat w)) :: msb_digits w x.
Proof.
  unfold msb_digits. rewrite seq_S, rev_app_distr. reflexivity.
Qed.

(** The last character shows bit 0. *)
Lemma msb_digits_bottom (w : nat) (x : Z) :
  msb_digits (S w) x
  = msb_digits w (Z.div2 x) ++ [bit_char (Z.testbit x 0)].
Proof.
  unfold msb_digits. cbn [seq rev]. rewrite map_app. cbn [map].
  f_equal. rewrite <- seq_shift, <- map_rev, map_map.
  apply map_ext. intros i.
  rewrite Nat2Z.inj_succ, Z.div2_div, Z.div2_bits by lia. reflexivity.
Qed.

Lemma msb_digits_split (k m : nat) (x : Z) :
  msb_digits (k + m) x
  = msb_digits k (Z.shiftr x (Z.of_nat m)) ++ msb_digits m x.
Proof.
  induction k as [|k IH].
  - reflexivity.
  - cbn [Nat.add]. rewrite !msb_digits_top, IH.
    rewrite Z.shiftr_spec by lia.
    rewrite Nat2Z.inj_add. reflexivity.
Qed.

Lemma msb_digits_pad (k n : nat) (x : Z) :
  (forall i, Z.of_nat n <= i -> Z.testbit x i = false) ->
  msb_digits (k + n) x = repeat (chr "0") k ++ msb_digits n x.
Proof.
  intros Hhi. induction k as [|k IH].
  - reflexivity.
  - cbn [Nat.add repeat]. rewrite msb_digits_top, IH, Hhi by lia.
    reflexivity.
Qed.

Lemma msb_digits_nth_error (w j : nat) (x : Z) :
  (j < w)%nat ->
  nth_error (msb_digits w x) j
  = Some (bit_char (Z.testbit x (Z.of_nat (w - 1 - j)))).
Proof.
  revert j. induction w as [|w IH]; intros j Hj; [lia|].
  rewrite msb_digits_top. destruct j as [|j]; cbn [nth_error].
  - do 3 f_equal. lia.
  - rewrite IH by lia. do 3 f_equal. lia.
Qed.

(** ** [bin] *)

Lemma bin_digits_msb (p : positive) :
  bin_digits p = msb_digits (Pos.size_nat p) (Zpos p).
Proof.
  induction p as [p IH|p IH|]; cbn [bin_digits Pos.size_nat].
  - rewrite msb_digits_bottom, IH. reflexivity.
  - rewrite msb_digits_bottom, IH. reflexivity.
  - reflexivity.
Qed.

Lemma size_nat_bounds (p : positive) :
  2 ^ Z.of_nat (Pos.size_nat p) <= 2 * Zpos p
  /\ Zpos p < 2 ^ Z.of_nat (Pos.size_nat p).
Proof.
  induction p as [p IH|p IH|]; cbn [Pos.size_nat].
  - rewrite Nat2Z.inj_succ, Z.pow_succ_r by lia. lia.
  - rewrite Nat2Z.inj_succ, Z.pow_succ_r by lia. lia.
  - cbn. lia.
Qed.

Lemma size_nat_log2 (p : positive) :
  Pos.size_nat p = S (Z.to_nat (Z.log2 (Zpos p))).
Proof.
  pose proof (size_nat_bounds p) as [Hlo Hhi].
  assert (Hpos : (0 < Pos.size_nat p)%nat) by (destruct p; cbn; lia).
  assert (Hlog : Z.log2 (Zpos p) = Z.of_nat (Pos.size_nat p) - 1).
  { apply Z.log2_unique; [lia|]. split.
    - replace (Z.of_nat (Pos.size_nat p))
        with (Z.succ (Z.of_nat (Pos.size_nat p) - 1)) in Hlo by lia.
      rewrite Z.pow_succ_r in Hlo by lia. lia.
    - replace (Z.succ (Z.of_nat (Pos.size_nat p) - 1))
        with (Z.of_nat (Pos.size_nat p)) by lia.
      exact Hhi. }
  rewrite Hlog. lia.
Qed.

Lemma bits_above_size (p : positive) (i : Z) :
  Z.of_nat (Pos.size_nat p) <= i -> Z.testbit (Zpos p) i = false.
Proof.
  intros Hi. pose proof (size_nat_bounds p) as [_ Hhi].
  rewrite <- (Z.mod_small (Zpos p) (2 ^ Z.of_nat (Pos.size_nat p))) by lia.
  apply Z.mod_pow2_bits_high. lia.
Qed.

Lemma bin_digits_head (p : positive) :
  exists rest, bin_digits p = chr "1" :: rest.
Proof.
  induction p as [p [rest IH]|p [rest IH]|]; cbn [bin_digits].
  - rewrite IH. eexists. reflexivity.
  - rewrite IH. eexists. reflexivity.
  - eexists. reflexivity.
Qed.

Lemma bin_digits_length (p : positive) :
  List.length (bin_digits p) = Pos.size_nat p.
Proof. rewrite bin_digits_msb. apply msb_digits_length. Qed.

(** Filling a string that does not start with a sign. *)
Lemma zfill_unsigned (w : nat) (c : char) (rest : str) :
  (c =? chr "+")%N || (c =? chr "-")%N = false ->
  zfill w (c :: rest)
  = repeat (chr "0") (w - List.length (c :: rest)) ++ c :: rest.
Proof.
  intros Hc. unfold zfill. rewrite Hc.
  destruct (Nat.leb_spec w (List.length (c :: rest))) as [Hle|Hgt].
  - replace (w - List.length (c :: rest))%nat with 0%nat by lia.
    reflexivity.
  - reflexivity.
Qed.

Lemma zfill_bin_digits (w : nat) (p : positive) :
  zfill w (bin_digits p)
  = msb_digits (Nat.max w (Pos.size_nat p)) (Zpos p).
Proof.
  destruct (bin_digits_head p) as [rest Hrest].
  pose proof (bin_digits_length p) as Hlen.
  rewrite Hrest in Hlen |- *.
  rewrite zfill_unsigned, Hlen by reflexivity.
  rewrite <- Hrest, bin_digits_msb.
  replace (Nat.max w (Pos.size_nat p))
    with ((w - Pos.size_nat p) + Pos.size_nat p)%nat by lia.
  symmetry. apply msb_digits_pad. apply bits_above_size.
Qed.

Lemma bit_pattern_nonneg (x : Z) :
  0 <= x ->
  bit_pattern x = msb_digits (Nat.max 32 (S (Z.to_nat (Z.log2 x)))) x.
Proof.
  intros Hx. destruct x as [|p|p]; [reflexivity | | lia].
  unfold bit_pattern, bin, slice_from.
  change (skipn 2 (str_of_string "0b" ++ bin_digits p)) with (bin_digits p).
  rewrite zfill_bin_digits, size_nat_log2. reflexivity.
Qed.

Lemma firstn_app_length {A : Type} (a b : list A) :
  firstn (List.length a) (a ++ b) = a.
Proof.
  induction a as [|h a IH]; cbn.
  - reflexivity.
  - f_equal. exact IH.
Qed.

Lemma skipn_app_length {A : Type} (a b : list A) :
  skipn (List.length a) (a ++ b) = b.
Proof.
  induction a as [|h a IH]; cbn; [reflexivity | exact IH].
Qed.

(** The first [k] and the last [m] characters of a bit string. *)
Lemma msb_digits_slices (k m : nat) (x : Z) :
  slice_to k (msb_digits (k + m) x) = msb_digits k (Z.shiftr x (Z.of_nat m))
  /\ slice_last m (msb_digits (k + m) x) = msb_digits m x.
Proof.
  unfold slice_to, slice_last.
  rewrite msb_digits_length, msb_digits_split.
  replace (k + m - m)%nat with k by lia.
  split.
  - rewrite <- (msb_digits_length k (Z.shiftr x (Z.of_nat m))) at 1.
    apply firstn_app_length.
  - rewrite <- (msb_digits_length k (Z.shiftr x (Z.of_nat m))) at 1.
    apply skipn_app_length.
Qed.

Lemma word32_log2 (x : Z) : word32 x -> Z.log2 x < 32.
Proof.
  intros [Hlo Hhi].
  destruct (Z.eq_dec x 0) as [->|Hnz]; [cbn; lia|].
  apply Z.log2_lt_pow2; lia.
Qed.

Lemma bit_pattern_word (x : Z) : word32 x -> bit_pattern x = msb_digits 32 x.
Proof.
  intros Hx. pose proof (word32_log2 x Hx) as Hlog.
  pose proof (Z.log2_nonneg x) as Hnn.
  rewrite bit_pattern_nonneg by apply Hx.
  f_equal. lia.
Qed.

Lemma bit_pattern_word_slices (x : Z) :
  word32 x ->
  slice_to 8 (bit_pattern x) = msb_digits 8 (Z.shiftr x 24)
  /\ slice_last 8 (bit_pattern x) = msb_digits 8 x.
Proof.
  intros Hx. rewrite bit_pattern_word by exact Hx. split.
  - apply (msb_digits_slices 8 24 x).
  - apply (msb_digits_slices 24 8 x).
Qed.

(** X20. For a 32-bit word, [bin(x)[2:].zfill(32)] has exactly 32
    characters, each ["0"] or ["1"], and character [j] shows bit
    [31 - j] of [x]: the bits of the word, most significant first. *)
Theorem bit_pattern_of_word (x : Z) :
  word32 x ->
  List.length (bit_pattern x) = 32%nat
  /\ forall j, (j < 32)%nat ->
       nth_error (bit_pattern x) j
       = Some (if Z.testbit x (Z.of_nat (31 - j)) then chr "1" else chr "0").
Proof.
  intros Hx. rewrite bit_pattern_word by exact Hx. split.
  - apply msb_digits_length.
  - intros j Hj. rewrite msb_digits_nth_error by exact Hj. reflexivity.
Qed.

Lemma bit_pattern_of_word_witness :
  word32 0x12345678
  /\ List.length (bit_pattern 0x12345678) = 32%nat
  /\ forall j, (j < 32)%nat ->
       nth_error (bit_pattern 0x12345678) j
       = Some (if Z.testbit 0x12345678 (Z.of_nat (31 - j))
               then chr "1" else chr "0").
Proof.
  assert (Hx : word32 0x12345678) by (unfold word32; lia).
  split; [exact Hx |].
  apply (bit_pattern_of_word 0x12345678 Hx).
Defined.

(** X21. A value of more than 32 bits is not cut down: its pattern has
    [log2 x + 1 > 32] characters, so the first eight characters show
    the eight highest bits of [x], not bits 31 to 24. *)
Theorem bit_pattern_of_wide_value (x : Z) :
  2 ^ 32 <= x ->
  bit_pattern x = msb_digits (S (Z.to_nat (Z.log2 x))) x
  /\ (32 < List.length (bit_pattern x))%nat
  /\ slice_to 8 (bit_pattern x) = msb_digits 8 (Z.shiftr x (Z.log2 x - 7))
  /\ slice_last 8 (bit_pattern x) = msb_digits 8 x.
Proof.
  intros Hx.
  assert (Hlog : 32 <= Z.log2 x) by (apply Z.log2_le_pow2; lia).
  assert (Hpat : bit_pattern x = msb_digits (S (Z.to_nat (Z.log2 x))) x).
  { rewrite bit_pattern_nonneg by lia. f_equal. lia. }
  rewrite Hpat. split; [reflexivity | split; [|split]].
  - rewrite msb_digits_length. lia.
  - replace (S (Z.to_nat (Z.log2 x)))
      with (8 + (Z.to_nat (Z.log2 x) - 7))%nat by lia.
    replace (Z.log2 x - 7) with (Z.of_nat (Z.to_nat (Z.log2 x) - 7)) by lia.
    apply msb_digits_slices.
  - replace (S (Z.to_nat (Z.log2 x)))
      with ((Z.to_nat (Z.log2 x) - 7) + 8)%nat by lia.
    apply msb_digits_slices.
Qed.

Lemma bit_pattern_of_wide_value_witness :
  2 ^ 32 <= 2 ^ 33 + 1
  /\ bit_pattern (2 ^ 33 + 1)
     = msb_digits (S (Z.to_nat (Z.log2 (2 ^ 33 + 1)))) (2 ^ 33 + 1)
  /\ (32 < List.length (bit_pattern (2 ^ 33 + 1)))%nat
  /\ slice_to 8 (bit_pattern (2 ^ 33 + 1))
     = msb_digits 8 (Z.shiftr (2 ^ 33 + 1) (Z.log2 (2 ^ 33 + 1) - 7))
  /\ slice_last 8 (bit_pattern (2 ^ 33 + 1)) = msb_digits 8 (2 ^ 33 + 1).
Proof.
  assert (Hx : 2 ^ 32 <= 2 ^ 33 + 1) by lia.
  split; [exact Hx |].
  apply (bit_pattern_of_wide_value (2 ^ 33 + 1) Hx).
Defined.

(** X22. For a negative value the slice [[2:]] removes ["-0"] and
    leaves the ["b"] of the prefix: the pattern is zeros, then ["b"],
    then the digits of [-x], and is not a string of bits. *)
Theorem bit_pattern_of_negative (x : Z) :
  x < 0 ->
  bit_pattern x
  = repeat (chr "0") (31 - S (Z.to_nat (Z.log2 (- x))))
      ++ chr "b" :: msb_digits (S (Z.to_nat (Z.log2 (- x)))) (- x).
Proof.
  intros Hx. destruct x as [|p|p]; [lia | lia |].
  change (- Z.neg p) with (Z.pos p).
  unfold bit_pattern, bin, slice_from.
  change (skipn 2 (str_of_string "-0b" ++ bin_digits p))
    with (chr "b" :: bin_digits p).
  rewrite zfill_unsigned by reflexivity.
  cbn [List.length]. rewrite bin_digits_length, bin_digits_msb, size_nat_log2.
  reflexivity.
Qed.

Lemma bit_pattern_of_negative_witness :
  -5 < 0
  /\ bit_pattern (-5)
     = repeat (chr "0") (31 - S (Z.to_nat (Z.log2 (- -5))))
         ++ chr "b" :: msb_digits (S (Z.to_nat (Z.log2 (- -5)))) (- -5).
Proof.
  assert (Hx : -5 < 0) by lia.
  split; [exact Hx |].
  apply (bit_pattern_of_negative (-5) Hx).
Defined.

(** X23. Called on 32-bit words, [print_bit_patterns] prints six
    lines: the title, then for [x], [y], [z] and the result the eight
    highest bits, three dots and the eight lowest bits, then the result
    in hexadecimal. *)
Theorem print_bit_patterns_of_words
  (func_name : str) (x y z result : Z) (out : stdout) :
  word32 x -> word32 y -> word32 z -> word32 result ->
  print_bit_patterns func_name x y z result out
  = out ++
    [ [10%N] ++ func_name ++ str_of_string " Function Demonstration:";
      str_of_string "x      = " ++ msb_digits 8 (Z.shiftr x 24)
        ++ str_of_string "..." ++ msb_digits 8 x;
      str_of_string "y      = " ++ msb_digits 8 (Z.shiftr y 24)
        ++ str_of_string "..." ++ msb_digits 8 y;
      str_of_string "z      = " ++ msb_digits 8 (Z.shiftr z 24)
        ++ str_of_string "..." ++ msb_digits 8 z;
      str_of_string "Result = " ++ msb_digits 8 (Z.shiftr result 24)
        ++ str_of_string "..." ++ msb_digits 8 result;
      str_of_string "Hex Result: " ++ hex result ].
Proof.
  intros Hx Hy Hz Hr.
  destruct (bit_pattern_word_slices x Hx) as [Hx1 Hx2].
  destruct (bit_pattern_word_slices y Hy) as [Hy1 Hy2].
  destruct (bit_pattern_word_slices z Hz) as [Hz1 Hz2].
  destruct (bit_pattern_word_slices result Hr) as [Hr1 Hr2].
  unfold print_bit_patterns, print. cbv zeta.
  rewrite Hx1, Hx2, Hy1, Hy2, Hz1, Hz2, Hr1, Hr2.
  rewrite <- !app_assoc. reflexivity.
Qed.

Lemma print_bit_patterns_of_words_witness :
  word32 0x12345678 /\ word32 0xABCDEF01 /\ word32 0x55555555
  /\ word32 0x47454705
  /\ print_bit_patterns (str_of_string "Choice (ch)")
       0x12345678 0xABCDEF01 0x55555555 0x47454705 []
     = [] ++
       [ [10%N] ++ str_of_string "Choice (ch)"
           ++ str_of_string " Function Demonstration:";
         str_of_string "x      = " ++ msb_digits 8 (Z.shiftr 0x12345678 24)
           ++ str_of_string "..." ++ msb_digits 8 0x12345678;
         str_of_string "y      = " ++ msb_digits 8 (Z.shiftr 0xABCDEF01 24)
           ++ str_of_string "..." ++ msb_digits 8 0xABCDEF01;
         str_of_string "z      = " ++ msb_digits 8 (Z.shiftr 0x55555555 24)
           ++ str_of_string "..." ++ msb_digits 8 0x55555555;
         str_of_string "Result = " ++ msb_digits 8 (Z.shiftr 0x47454705 24)
           ++ str_of_string "..." ++ msb_digits 8 0x47454705;
         str_of_string "Hex Result: " ++ hex 0x47454705 ].
Proof.
  assert (Hx : word32 0x12345678) by (unfold word32; lia).
  assert (Hy : word32 0xABCDEF01) by (unfold word32; lia).
  assert (Hz : word32 0x55555555) by (unfold word32; lia).
  assert (Hr : word32 0x47454705) by (unfold word32; lia).
  split; [exact Hx | split; [exact Hy | split; [exact Hz | split;
    [exact Hr |]]]].
  apply (print_bit_patterns_of_words (str_of_string "Choice (ch)")
           0x12345678 0xABCDEF01 0x55555555 0x47454705 [] Hx Hy Hz Hr).
Defined.

(** ** [hex] *)







(** ** Display vectors *)

Example bin_vectors :
  bin 5 = str_of_string "0b101" /\ bin 0 = str_of_string "0b0"
  /\ bin (-5) = str_of_string "-0b101".
Proof. repeat split. Qed.

Example hex_vectors :
  hex 0xaa55aa55 = str_of_string "0xaa55aa55"
  /\ hex 0 = str_of_string "0x0" /\ hex (-255) = str_of_string "-0xff".
Proof. repeat split. Qed.

Example zfill_sign_vector :
  zfill 6 (str_of_string "-12") = str_of_string "-00012".
Proof. reflexivity. Qed.

Example bit_pattern_vector :
  bit_pattern 0xF0F0F0F0 = str_of_string "11110000111100001111000011110000".
Proof. reflexivity. Qed.
